(** * peerjs [lib/util.ts]: chunking, buffers and id validation

    A shallow embedding of the [Util] class of [src/lib/util.ts] and of
    [concatArrayBuffers], with the properties of the chunked-transfer
    layer proved over it.

    Conventions of the embedding.
    - An [ArrayBuffer] and a [Uint8Array] are both lists of bytes, a byte
      being an integer.  [concatArrayBuffers] is modelled on the
      [Uint8Array]s its signature asks for and is applied to nothing else:
      in the source [result.set] copies nothing from a bare [ArrayBuffer],
      such as a payload of [chunk], which has no [length].
    - A JavaScript string is the list of its UTF-16 code units, which is
      what [charCodeAt] and the character classes of a regular expression
      without the [u] flag see.
    - A JavaScript [number] holding a length, an offset or an index is an
      integer of [Z].  Every such number in [chunk] is bounded by the byte
      length of a buffer, which ECMAScript keeps below [2^53], so the
      double-precision arithmetic is exact there (this includes
      [Math.ceil (size / 16300)]: no quotient below [2^53 / 16300] is
      within half an ulp of an integer it does not equal).  The one number
      that is not bounded by a buffer is the counter [_dataCount], whose
      [++] is modelled with the rounding a double performs.
    - Code that can throw or loop returns an [outcome]. *)

From Stdlib Require Import ZArith Lia String.
From stdpp Require Import base list sorting.

Local Open Scope Z_scope.

(** ** Values *)

Abbreviation byte := Z (only parsing).
Abbreviation ArrayBuffer := (list Z) (only parsing).
Abbreviation Uint8Array := (list Z) (only parsing).
Abbreviation JSString := (list Z) (only parsing).

(** What a [throw] carries: a built-in [RangeError], or an error of the
    program's own, by name. *)
Inductive JSError :=
| RangeError
| UserError (name : string).

Inductive outcome (A : Type) :=
| Returns (a : A)
| Throws (e : JSError)
| OutOfFuel.
Arguments Returns {A} a.
Arguments Throws {A} e.
Arguments OutOfFuel {A}.

#[global] Instance outcome_ret : MRet outcome := @Returns.

#[global] Instance outcome_bind : MBind outcome := λ A B k m,
  match m with
  | Returns a => k a
  | Throws e => Throws e
  | OutOfFuel => OutOfFuel
  end.

Definition byteLength (buf : list byte) : Z := Z.of_nat (length buf).

(** [Math.ceil (a / b)] on integers.  Exact for [b ≠ 0]; for [b = 0],
    where JavaScript yields [NaN] or an infinity, it is [0]. *)
Definition ceil_div (a b : Z) : Z := - ((- a) / b).

(** A relative index of [slice]: negative counts from the end, and the
    result is clamped to [0 .. len]. *)
Definition relative_index (len i : Z) : Z :=
  if i <? 0 then Z.max (len + i) 0 else Z.min i len.

(** [ArrayBuffer.prototype.slice (begin, end)]. *)
Definition slice (buf : ArrayBuffer) (begin end_ : Z) : ArrayBuffer :=
  let len := byteLength buf in
  let first := relative_index len begin in
  let final := relative_index len end_ in
  take (Z.to_nat (Z.max (final - first) 0)) (drop (Z.to_nat first) buf).

(** [x++] on a double holding a non-negative integer of at most [2^53]:
    below [2^53] the sum is exact; [2^53 + 1] is a tie between [2^53] and
    [2^53 + 2] and rounds to the even mantissa, [2^53]. *)
Definition MAX_EXACT : Z := 2 ^ 53.

Definition number_incr (x : Z) : Z :=
  if x <? MAX_EXACT then x + 1 else x.

(** ** The [Util] class: state and [chunk] *)

Record Util := mkUtil { _dataCount : Z }.

Definition chunkedMTU : Z := 16300.

(** [new Util ()]: [private _dataCount: number = 1]. *)
Definition new_Util : Util := {| _dataCount := 1 |}.

Record Chunk := mkChunk {
  __peerData : Z;
  n : Z;
  data : ArrayBuffer;
  total : Z
}.

Section ChunkLoop.
(** The value read from [util.chunkedMTU]. *)
Variable mtu : Z.
Variable this : Util.
Variable blob : ArrayBuffer.

(** [while (start < size) { ... }], one unit of fuel per iteration. *)
Fixpoint chunk_while (fuel : nat) (size total_ : Z)
    (chunks : list Chunk) (index start : Z) : outcome (list Chunk) :=
  if start <? size then
    match fuel with
    | O => OutOfFuel
    | S fuel' =>
        let end_ := Z.min size (start + mtu) in
        let b := slice blob start end_ in
        let chunk :=
          {| __peerData := _dataCount this; n := index;
             data := b; total := total_ |} in
        chunk_while fuel' size total_ (chunks ++ [chunk]) (index + 1) end_
    end
  else Returns chunks.

Definition chunk_at (fuel : nat) : outcome (list Chunk * Util) :=
  let size := byteLength blob in
  let total_ := ceil_div size mtu in
  chunks ← chunk_while fuel size total_ [] 0 0;
  mret (chunks, {| _dataCount := number_incr (_dataCount this) |}).
End ChunkLoop.

(** [Util.chunk]: the MTU is the constant [chunkedMTU]; the loop advances
    by at least one byte per iteration, so the byte length bounds the
    number of iterations and the fuel never runs out
    ([chunk_closed_form], [chunk_fuel_irrelevant]). *)
Definition chunk (this : Util) (blob : ArrayBuffer)
    : outcome (list Chunk * Util) :=
  chunk_at chunkedMTU this blob (length blob).

(** ** [concatArrayBuffers] *)

(** [new Uint8Array (length)]: zero-filled; a negative length throws. *)
Definition new_Uint8Array (len : Z) : outcome Uint8Array :=
  if len <? 0 then Throws RangeError
  else Returns (replicate (Z.to_nat len) 0).

(** [target.set (source, offset)]: throws unless the source fits. *)
Definition Uint8Array_set (target source : Uint8Array) (offset : Z)
    : outcome Uint8Array :=
  if (offset <? 0) || (byteLength target <? byteLength source + offset)
  then Throws RangeError
  else Returns (take (Z.to_nat offset) target ++ source ++
                drop (Z.to_nat offset + length source) target).

(** The second [for (const buf of bufs)] loop. *)
Fixpoint copy_bufs (bufs : list Uint8Array) (result : Uint8Array)
    (offset : Z) : outcome Uint8Array :=
  match bufs with
  | [] => Returns result
  | buf :: rest =>
      result' ← Uint8Array_set result buf offset;
      copy_bufs rest result' (offset + byteLength buf)
  end.

Definition concatArrayBuffers (bufs : list Uint8Array) : outcome Uint8Array :=
  let size := foldl (λ size buf, size + byteLength buf) 0 bufs in
  result ← new_Uint8Array size;
  copy_bufs bufs result 0.

(** ** [Util.binaryStringToArrayBuffer] *)

(** [s.charCodeAt (i)]; [None] stands for [NaN]. *)
Definition charCodeAt (s : JSString) (i : Z) : option Z :=
  if i <? 0 then None else s !! Z.to_nat i.

(** [x & 0xff], [NaN] converting to [0]. *)
Definition and_0xff (x : option Z) : Z :=
  match x with
  | Some c => Z.land c 255
  | None => 0
  end.

(** [arr[i] = v] on a [Uint8Array]: the value is reduced modulo 256 and
    a write outside the array is ignored. *)
Definition Uint8Array_store (arr : Uint8Array) (i v : Z) : Uint8Array :=
  if i <? 0 then arr else <[Z.to_nat i := v `mod` 256]> arr.

(** The [for] loop runs [i] over [0 .. binary.length - 1]. *)
Definition binaryStringToArrayBuffer (binary : JSString)
    : outcome ArrayBuffer :=
  let len := Z.of_nat (length binary) in
  byteArray ← new_Uint8Array len;
  Returns
    (foldl (λ byteArray i,
              Uint8Array_store byteArray i (and_0xff (charCodeAt binary i)))
           byteArray (seqZ 0 len)).

(** ** Regular expressions and [Util.validateId] *)

Module RegExp.

(** The fragment of the pattern language that [validateId] uses: character
    classes, sequencing, [+] and [*] over a non-capturing group. *)
Inductive pattern :=
| Eps
| Class (cls : Z → bool)
| Seq (p q : pattern)
| Alt (p q : pattern)
| Star (p : pattern).

Definition Plus (p : pattern) : pattern := Seq p (Star p).

(** The language of a pattern. *)
Inductive matches : pattern → JSString → Prop :=
| m_eps : matches Eps []
| m_class cls c : cls c = true → matches (Class cls) [c]
| m_seq p q s t : matches p s → matches q t → matches (Seq p q) (s ++ t)
| m_alt_l p q s : matches p s → matches (Alt p q) s
| m_alt_r p q s : matches q s → matches (Alt p q) s
| m_star_nil p : matches (Star p) []
| m_star_app p s t :
    matches p s → matches (Star p) t → matches (Star p) (s ++ t).

(** Matching by derivatives; [None] is the pattern that matches nothing. *)
Fixpoint nullable (p : pattern) : bool :=
  match p with
  | Eps => true
  | Class _ => false
  | Seq p q => nullable p && nullable q
  | Alt p q => nullable p || nullable q
  | Star _ => true
  end.

Definition alt_opt (a b : option pattern) : option pattern :=
  match a, b with
  | Some p, Some q => Some (Alt p q)
  | Some p, None => Some p
  | None, b => b
  end.

Fixpoint deriv (c : Z) (p : pattern) : option pattern :=
  match p with
  | Eps => None
  | Class cls => if cls c then Some Eps else None
  | Seq p q =>
      alt_opt ((λ p', Seq p' q) <$> deriv c p)
              (if nullable p then deriv c q else None)
  | Alt p q => alt_opt (deriv c p) (deriv c q)
  | Star p => (λ p', Seq p' (Star p)) <$> deriv c p
  end.

Fixpoint accepts (p : pattern) (s : JSString) : bool :=
  match s with
  | [] => nullable p
  | c :: s' =>
      match deriv c p with
      | Some p' => accepts p' s'
      | None => false
      end
  end.

(** What a derivative matches, [None] matching nothing. *)
Definition matches_opt (o : option pattern) (s : JSString) : Prop :=
  match o with
  | Some p => matches p s
  | None => False
  end.

(** [/^p$/.test (s)]: with both anchors and no flags, the whole of [s]
    has to match [p]. *)
Definition test_anchored (p : pattern) (s : JSString) : bool := accepts p s.

End RegExp.

Definition in_range (lo hi c : Z) : bool := (lo <=? c) && (c <=? hi).

(** [[A-Za-z0-9]] on code units. *)
Definition alnum (c : Z) : bool :=
  in_range 65 90 c || in_range 97 122 c || in_range 48 57 c.

(** [[ _-]]: space, underscore, and a final hyphen, which is literal. *)
Definition separator (c : Z) : bool :=
  (c =? 32) || (c =? 95) || (c =? 45).

(** [[A-Za-z0-9]+(?:[ _-][A-Za-z0-9]+)*] *)
Definition id_pattern : RegExp.pattern :=
  RegExp.Seq (RegExp.Plus (RegExp.Class alnum))
    (RegExp.Star (RegExp.Seq (RegExp.Class separator)
                             (RegExp.Plus (RegExp.Class alnum)))).

(** [!id] on a string: true exactly for the empty string. *)
Definition not_string (id : JSString) : bool :=
  match id with
  | [] => true
  | _ :: _ => false
  end.

Definition validateId (id : JSString) : bool :=
  not_string id || RegExp.test_anchored id_pattern id.

(** The wording of the specification for well-formed ids: alphanumeric
    groups separated by single separator characters. *)
Definition alnum_group (g : JSString) : Prop :=
  g ≠ [] ∧ Forall (λ c, alnum c = true) g.

Definition separated_groups (s : JSString) : Prop :=
  ∃ (g : JSString) (more : list (Z * JSString)),
    alnum_group g ∧
    Forall (λ sg, separator sg.1 = true ∧ alnum_group sg.2) more ∧
    s = g ++ concat (map (λ sg, sg.1 :: sg.2) more).

(** The code units of an ASCII string literal, for examples. *)
Fixpoint code_units (s : string) : JSString :=
  match s with
  | EmptyString => []
  | String a s' => Z.of_N (Ascii.N_of_ascii a) :: code_units s'
  end.

(** ** Sequences of calls on one instance *)

(** [chunk] called on each buffer in turn, threading the instance. *)
Fixpoint chunk_calls (this : Util) (blobs : list ArrayBuffer)
    : outcome (list (list Chunk) * Util) :=
  match blobs with
  | [] => Returns ([], this)
  | blob :: rest =>
      r ← chunk this blob;
      rs ← chunk_calls r.2 rest;
      Returns (r.1 :: rs.1, rs.2)
  end.

(** States of an instance that calls of [chunk] can reach. *)
Inductive reachable : Util → Prop :=
| reach_new : reachable new_Util
| reach_chunk this blob chunks this' :
    reachable this → chunk this blob = Returns (chunks, this') →
    reachable this'.

(** ** Records in ascending order of [n]

    The arrangement in which the payloads of a transfer are concatenated:
    the records sorted by their sequence number, whatever the order in
    which they arrived. *)
Definition sequence_le (a b : Chunk) : Prop := n a ≤ n b.

#[global] Instance sequence_le_dec : RelDecision sequence_le :=
  λ a b, Z_le_dec (n a) (n b).

Definition arrange_by_n (arrived : list Chunk) : list Chunk :=
  merge_sort sequence_le arrived.

(** ** Closed form of the records

    The record that the iteration with [index = j] pushes when the loop
    runs with a positive MTU; the loop is proved to build exactly these
    ([chunk_at_closed_form]). *)
Definition chunk_record (mtu : Z) (this : Util) (blob : ArrayBuffer)
    (j : Z) : Chunk :=
  {| __peerData := _dataCount this;
     n := j;
     data := slice blob (j * mtu) (Z.min (byteLength blob) ((j + 1) * mtu));
     total := ceil_div (byteLength blob) mtu |}.

(** ** One pass over an id

    The ids of [validateId] as a scan from left to right that remembers
    only whether the unit before was a letter or a digit; it is proved to
    decide the same ids as the pattern ([id_scan_groups]) and serves to
    reason about prefixes and suffixes of ids. *)
Fixpoint id_scan (after_alnum : bool) (s : JSString) : bool :=
  match s with
  | [] => after_alnum
  | c :: s' =>
      if alnum c then id_scan true s'
      else if separator c then after_alnum && id_scan false s'
      else false
  end.

(** ** [Util.supports]

    The immediately invoked function that probes the platform.  What the
    platform answers is a parameter: the static members of [Supports] and
    the behaviour of [RTCPeerConnection] and of its data channel, each call
    of which may throw. *)
Module Probe.

Record UtilSupportsObj := mkSupports {
  browser : bool;
  webRTC : bool;
  audioVideo : bool;
  data : bool;
  binaryBlob : bool;
  reliable : bool
}.

Record Platform := mkPlatform {
  (** [Supports.isBrowserSupported ()] *)
  isBrowserSupported : bool;
  (** [Supports.isWebRTCSupported ()] *)
  isWebRTCSupported : bool;
  (** [Supports.isIOS] *)
  isIOS : bool;
  (** [new RTCPeerConnection (DEFAULT_CONFIG)]: the error it throws, if any *)
  new_RTCPeerConnection : option JSError;
  (** [pc.createDataChannel (...)]: the error it throws, or the channel it
      returns, seen through [!!dc.ordered] *)
  createDataChannel : JSError + bool;
  (** [dc.binaryType = "blob"]: the error it throws, if any *)
  set_binaryType : option JSError;
  (** [dc.close ()] and [pc.close ()]: the error thrown, if any *)
  dc_close : option JSError;
  pc_close : option JSError
}.

(** The objects the function creates and the calls that release them. *)
Inductive object := PC | DC.

Inductive event :=
| Created (o : object)
| Closed (o : object).

(** The variables of the function and the calls made so far. *)
Record Frame := mkFrame {
  supported : UtilSupportsObj;
  pc : bool;
  dc : bool;
  log : list event
}.

(** Statements: they update the frame and complete normally or throw. *)
Definition Stmt (A : Type) : Type := Frame → Frame * outcome A.

Definition skip : Stmt unit := λ f, (f, Returns tt).

Definition and_then {A B} (m : Stmt A) (k : A → Stmt B) : Stmt B := λ f,
  match m f with
  | (f', Returns a) => k a f'
  | (f', Throws e) => (f', Throws e)
  | (f', OutOfFuel) => (f', OutOfFuel)
  end.

Definition update (g : Frame → Frame) : Stmt unit := λ f, (g f, Returns tt).

(** A call that throws [e] when the platform says [Some e]. *)
Definition call (answer : option JSError) : Stmt unit := λ f,
  match answer with
  | Some e => (f, Throws e)
  | None => (f, Returns tt)
  end.

(** [try { body } catch (e) {}]: what the body has done stays done. *)
Definition try_catch (body : Stmt unit) : Stmt unit := λ f,
  match body f with
  | (f', Throws _) => (f', Returns tt)
  | r => r
  end.

(** [try { body } finally { final }]: the [finally] block always runs,
    and its own throw replaces the completion of the body. *)
Definition try_finally (body final : Stmt unit) : Stmt unit := λ f,
  match body f with
  | (f', r) =>
      match final f' with
      | (f'', Returns _) => (f'', r)
      | abrupt => abrupt
      end
  end.

Definition set_supported (g : UtilSupportsObj → UtilSupportsObj) : Stmt unit :=
  update (λ f, mkFrame (g (supported f)) (pc f) (dc f) (log f)).

Definition log_event (e : event) : Stmt unit :=
  update (λ f, mkFrame (supported f) (pc f) (dc f) (log f ++ [e])).

(** [pc = new RTCPeerConnection (DEFAULT_CONFIG)] *)
Definition assign_pc (p : Platform) : Stmt unit :=
  and_then (call (new_RTCPeerConnection p)) (λ _,
  and_then (log_event (Created PC)) (λ _,
  update (λ f, mkFrame (supported f) true (dc f) (log f)))).

(** [dc = pc.createDataChannel ("_PEERJSTEST", { ordered: true })]; the
    result is [!!dc.ordered]. *)
Definition assign_dc (p : Platform) : Stmt bool := λ f,
  match createDataChannel p with
  | inl e => (f, Throws e)
  | inr ordered =>
      (mkFrame (supported f) (pc f) true (log f ++ [Created DC]),
       Returns ordered)
  end.

(** [if (dc) { dc.close (); }] and [if (pc) { pc.close (); }] *)
Definition close_dc (p : Platform) : Stmt unit := λ f,
  if dc f then and_then (log_event (Closed DC)) (λ _, call (dc_close p)) f
  else skip f.

Definition close_pc (p : Platform) : Stmt unit := λ f,
  if pc f then and_then (log_event (Closed PC)) (λ _, call (pc_close p)) f
  else skip f.

(** The binary test: [try { dc.binaryType = "blob"; supported.binaryBlob =
    !Supports.isIOS; } catch (e) {}] *)
Definition binary_test (p : Platform) : Stmt unit :=
  try_catch
    (and_then (call (set_binaryType p)) (λ _,
     set_supported (λ s, mkSupports (browser s) (webRTC s) (audioVideo s)
                           (data s) (negb (isIOS p)) (reliable s)))).

(** The inner [try ... catch (e) {} finally { if (dc) dc.close () }] *)
Definition data_channel_test (p : Platform) : Stmt unit :=
  try_finally
    (try_catch
       (and_then (assign_dc p) (λ ordered,
        and_then (set_supported (λ s, mkSupports (browser s) (webRTC s)
                                   (audioVideo s) true (binaryBlob s)
                                   (reliable s))) (λ _,
        and_then (set_supported (λ s, mkSupports (browser s) (webRTC s)
                                   (audioVideo s) (data s) (binaryBlob s)
                                   ordered)) (λ _,
        binary_test p)))))
    (close_dc p).

(** The outer [try ... catch (e) {} finally { if (pc) pc.close () }] *)
Definition peer_connection_test (p : Platform) : Stmt unit :=
  try_finally
    (try_catch
       (and_then (assign_pc p) (λ _,
        and_then (set_supported (λ s, mkSupports (browser s) (webRTC s) true
                                   (data s) (binaryBlob s) (reliable s)))
            (λ _,
        data_channel_test p))))
    (close_pc p).

(** The frame at entry: [supported] as the object literal has it, [pc]
    and [dc] not yet assigned, no call made. *)
Definition entry (p : Platform) : Frame :=
  mkFrame (mkSupports (isBrowserSupported p) (isWebRTCSupported p)
             false false false false)
          false false [].

(** The function: [if (!supported.webRTC) return supported;], then the
    tests, then [return supported;]. *)
Definition probe (p : Platform) : Stmt UtilSupportsObj := λ f,
  if negb (webRTC (supported f)) then (f, Returns (supported f))
  else and_then (peer_connection_test p) (λ _ f', (f', Returns (supported f'))) f.

(** The calls made and the value of [util.supports], or the error that
    leaves the function. *)
Definition supports (p : Platform) : list event * outcome UtilSupportsObj :=
  let r := probe p (entry p) in (log r.1, r.2).

End Probe.

(** * Properties *)

(** ** Arithmetic and slices *)

Lemma ceil_div_bounds a b :
  0 < b → (ceil_div a b - 1) * b < a ≤ ceil_div a b * b.
Proof.
  intros Hb. unfold ceil_div.
  pose proof (Z.div_mod (- a) b ltac:(lia)) as Hdm.
  pose proof (Z.mod_pos_bound (- a) b Hb) as Hmod.
  nia.
Qed.

Lemma ceil_div_unique a b q :
  0 < b → (q - 1) * b < a ≤ q * b → ceil_div a b = q.
Proof.
  intros Hb Hq. pose proof (ceil_div_bounds a b Hb). nia.
Qed.

Lemma ceil_div_lt a b j : 0 < b → j * b < a ↔ j < ceil_div a b.
Proof.
  intros Hb. pose proof (ceil_div_bounds a b Hb). split; intros; nia.
Qed.

Lemma ceil_div_nonneg a b : 0 < b → 0 ≤ a → 0 ≤ ceil_div a b ≤ a.
Proof.
  intros Hb Ha. pose proof (ceil_div_bounds a b Hb). nia.
Qed.

Lemma slice_inside (buf : ArrayBuffer) a b :
  0 ≤ a ≤ b → b ≤ byteLength buf →
  slice buf a b = take (Z.to_nat (b - a)) (drop (Z.to_nat a) buf).
Proof.
  intros Hab Hb. unfold slice, relative_index.
  destruct (Z.ltb_spec a 0), (Z.ltb_spec b 0); try lia.
  f_equal; [|f_equal]; lia.
Qed.

Lemma length_slice_inside (buf : ArrayBuffer) a b :
  0 ≤ a ≤ b → b ≤ byteLength buf →
  Z.of_nat (length (slice buf a b)) = b - a.
Proof.
  intros Hab Hb. rewrite slice_inside by done.
  unfold byteLength in Hb. rewrite length_take, length_drop. lia.
Qed.

Lemma take_app_slice (buf : ArrayBuffer) a b :
  0 ≤ a ≤ b → b ≤ byteLength buf →
  take (Z.to_nat a) buf ++ slice buf a b = take (Z.to_nat b) buf.
Proof.
  intros Hab Hb. rewrite slice_inside by done.
  replace (Z.to_nat b) with (Z.to_nat a + Z.to_nat (b - a))%nat by lia.
  generalize (Z.to_nat (b - a)) as k. generalize (Z.to_nat a) as i.
  clear. intros i. revert buf.
  induction i as [|i IH]; intros [|x buf] k; simpl; try done.
  - by destruct k.
  - by rewrite IH.
Qed.

(** ** The loop of [chunk] with a positive MTU *)

Section ChunkFacts.
Variable mtu : Z.
Hypothesis mtu_pos : 0 < mtu.
Variable this : Util.
Variable blob : ArrayBuffer.

Let size := byteLength blob.
Let count := ceil_div size mtu.

Lemma size_nonneg : 0 ≤ size.
Proof. unfold size, byteLength. lia. Qed.

Lemma count_bounds : 0 ≤ count ≤ size.
Proof. apply ceil_div_nonneg; [done | apply size_nonneg]. Qed.

Lemma chunk_while_closed_form fuel chunks index :
  0 ≤ index ≤ count → count - index ≤ Z.of_nat fuel →
  chunk_while mtu this blob fuel size count chunks index
    (Z.min size (index * mtu))
  = Returns (chunks ++ map (chunk_record mtu this blob)
                          (seqZ index (count - index))).
Proof.
  pose proof (ceil_div_bounds size mtu mtu_pos) as Hc. fold count in Hc.
  revert chunks index.
  induction fuel as [|fuel IH]; intros chunks index Hi Hfuel; simpl.
  - assert (index = count) as -> by lia.
    rewrite Z.min_l, Z.ltb_irrefl, Z.sub_diag by lia.
    by rewrite app_nil_r.
  - destruct (Z.ltb_spec (Z.min size (index * mtu)) size) as [Hlt|Hge].
    + assert (index * mtu < size) as Hlt' by lia.
      assert (index < count) as Hic by (by apply ceil_div_lt).
      replace (Z.min size (Z.min size (index * mtu) + mtu))
        with (Z.min size ((index + 1) * mtu)) by lia.
      rewrite IH by lia.
      rewrite (seqZ_cons index) by lia. simpl.
      rewrite <- app_assoc. simpl. do 2 f_equal.
      replace (Z.succ index) with (index + 1) by lia.
      replace (Z.pred (count - index)) with (count - (index + 1)) by lia.
      f_equal. unfold chunk_record. fold size count.
      by rewrite (Z.min_r size (index * mtu)) by lia.
    + assert (size ≤ index * mtu) as Hge' by lia.
      assert (¬ index < count)
        by (intros ?%(ceil_div_lt size mtu index mtu_pos); lia).
      assert (index = count) as -> by lia.
      rewrite Z.sub_diag. by rewrite app_nil_r.
Qed.

(** With enough fuel the call returns the records of the closed form
    and has applied [++] to the counter once. *)
Lemma chunk_at_closed_form fuel :
  count ≤ Z.of_nat fuel →
  chunk_at mtu this blob fuel
  = Returns (map (chunk_record mtu this blob) (seqZ 0 count),
             {| _dataCount := number_incr (_dataCount this) |}).
Proof.
  intros Hfuel. unfold chunk_at. fold size count.
  pose proof count_bounds. pose proof size_nonneg.
  replace 0 with (Z.min size (0 * mtu)) at 2 by lia.
  rewrite chunk_while_closed_form by lia.
  by rewrite Z.sub_0_r.
Qed.

(** The payloads of the first [k] records are the first [k * mtu] bytes
    (all of them once [k] reaches the count). *)
Lemma concat_data_prefix (k : nat) :
  Z.of_nat k ≤ count →
  concat (map data (map (chunk_record mtu this blob) (seqZ 0 (Z.of_nat k))))
  = take (Z.to_nat (Z.min size (Z.of_nat k * mtu))) blob.
Proof.
  pose proof (ceil_div_bounds size mtu mtu_pos) as Hc. fold count in Hc.
  pose proof size_nonneg.
  induction k as [|k IH]; intros Hk.
  - simpl. by rewrite Z.min_r by lia.
  - rewrite Nat2Z.inj_succ, <- Z.add_1_r.
    rewrite seqZ_app by lia. rewrite !map_app, concat_app, IH by lia.
    simpl. rewrite app_nil_r.
    assert (Z.of_nat k * mtu < size) by nia.
    rewrite (Z.min_r size (Z.of_nat k * mtu)) by lia.
    apply take_app_slice; fold size; lia.
Qed.

Lemma concat_data_all :
  concat (map data (map (chunk_record mtu this blob) (seqZ 0 count))) = blob.
Proof.
  pose proof (ceil_div_bounds size mtu mtu_pos) as Hc. fold count in Hc.
  pose proof count_bounds.
  rewrite <- (Z2Nat.id count) at 1 by lia.
  rewrite concat_data_prefix by lia.
  rewrite Z2Nat.id, Z.min_l by lia.
  apply take_ge. unfold size, byteLength. lia.
Qed.

Lemma length_chunk_record_data j :
  0 ≤ j < count →
  Z.of_nat (length (data (chunk_record mtu this blob j)))
  = Z.min mtu (size - j * mtu).
Proof.
  intros Hj.
  pose proof (ceil_div_bounds size mtu mtu_pos) as Hc. fold count in Hc.
  simpl. fold size. rewrite length_slice_inside; fold size; nia.
Qed.
End ChunkFacts.

(** ** [concatArrayBuffers] *)

Lemma total_size_foldl (bufs : list Uint8Array) (z : Z) :
  foldl (λ size buf, size + byteLength buf) z bufs
  = z + byteLength (concat bufs).
Proof.
  revert z. induction bufs as [|buf bufs IH]; intros z; simpl.
  - unfold byteLength. simpl. lia.
  - rewrite IH. unfold byteLength. rewrite length_app. lia.
Qed.

Lemma Uint8Array_set_fits (pre post source : Uint8Array) :
  (length source ≤ length post)%nat →
  Uint8Array_set (pre ++ post) source (byteLength pre)
  = Returns (pre ++ source ++ drop (length source) post).
Proof.
  intros Hfit. unfold Uint8Array_set, byteLength.
  rewrite length_app.
  destruct (Z.ltb_spec (Z.of_nat (length pre)) 0); [lia|].
  destruct (Z.ltb_spec (Z.of_nat (length pre + length post))
              (Z.of_nat (length source) + Z.of_nat (length pre))); [lia|].
  simpl. rewrite Nat2Z.id.
  rewrite take_app_length, drop_app_add'; done.
Qed.

(** The copy loop, started on a result whose first [offset] bytes are
    [pre], writes the buffers right after them. *)
Lemma copy_bufs_spec (bufs : list Uint8Array) :
  ∀ pre post : Uint8Array,
    length post = length (concat bufs) →
    copy_bufs bufs (pre ++ post) (byteLength pre)
    = Returns (pre ++ concat bufs).
Proof.
  induction bufs as [|buf bufs IH]; intros pre post Hlen; simpl in *.
  - destruct post; [|done]. done.
  - rewrite length_app in Hlen.
    rewrite Uint8Array_set_fits by lia. simpl.
    rewrite (app_assoc pre buf).
    replace (byteLength pre + byteLength buf) with (byteLength (pre ++ buf))
      by (unfold byteLength; rewrite length_app; lia).
    rewrite IH; [by rewrite <- app_assoc|].
    rewrite length_drop. lia.
Qed.

Lemma concatArrayBuffers_concat (bufs : list Uint8Array) :
  concatArrayBuffers bufs = Returns (concat bufs).
Proof.
  unfold concatArrayBuffers. rewrite total_size_foldl, Z.add_0_l.
  unfold new_Uint8Array, byteLength.
  destruct (Z.ltb_spec (Z.of_nat (length (concat bufs))) 0); [lia|]. simpl.
  rewrite Nat2Z.id.
  apply (copy_bufs_spec bufs []). by rewrite length_replicate.
Qed.

Lemma byteLength_concat (bufs : list Uint8Array) :
  byteLength (concat bufs) = foldr Z.add 0 (map byteLength bufs).
Proof.
  induction bufs as [|buf bufs IH]; simpl; [done|].
  rewrite <- IH. unfold byteLength. rewrite length_app. lia.
Qed.

(** ** [Util.chunk] *)

Lemma chunkedMTU_pos : 0 < chunkedMTU.
Proof. reflexivity. Qed.

(** [chunk] never runs out of fuel: it returns the closed form. *)
Lemma chunk_closed_form this blob :
  chunk this blob
  = Returns (map (chunk_record chunkedMTU this blob)
                 (seqZ 0 (ceil_div (byteLength blob) chunkedMTU)),
             {| _dataCount := number_incr (_dataCount this) |}).
Proof.
  unfold chunk. apply chunk_at_closed_form; [apply chunkedMTU_pos|].
  apply (count_bounds chunkedMTU chunkedMTU_pos blob).
Qed.

(** More fuel changes nothing, for any MTU: a run that has returned or
    thrown does so with any larger fuel as well. *)
Lemma chunk_while_fuel_mono mtu this blob fuel fuel' size total_ chunks
    index start :
  (fuel ≤ fuel')%nat →
  chunk_while mtu this blob fuel size total_ chunks index start ≠ OutOfFuel →
  chunk_while mtu this blob fuel' size total_ chunks index start
  = chunk_while mtu this blob fuel size total_ chunks index start.
Proof.
  revert fuel' chunks index start.
  induction fuel as [|fuel IH]; intros fuel' chunks index start Hle Hret.
  - destruct fuel' as [|fuel']; [done|]. simpl in *.
    destruct (start <? size); [by destruct Hret | done].
  - destruct fuel' as [|fuel']; [lia|]. simpl in *.
    destruct (start <? size); [|done]. apply IH; [lia | done].
Qed.

Lemma chunk_fuel_irrelevant this blob fuel :
  (length blob ≤ fuel)%nat →
  chunk_at chunkedMTU this blob fuel = chunk this blob.
Proof.
  intros Hfuel. rewrite chunk_closed_form.
  apply chunk_at_closed_form; [apply chunkedMTU_pos|].
  pose proof (count_bounds chunkedMTU chunkedMTU_pos blob) as [_ Hc].
  unfold byteLength in Hc at 2. lia.
Qed.

Lemma length_chunk_records mtu this blob count :
  0 ≤ count →
  Z.of_nat (length (map (chunk_record mtu this blob) (seqZ 0 count))) = count.
Proof. intros. rewrite length_map, length_seqZ. lia. Qed.

Lemma map_n_chunk_records mtu this blob m count :
  map n (map (chunk_record mtu this blob) (seqZ m count)) = seqZ m count.
Proof. rewrite map_map. simpl. apply map_id. Qed.

Lemma lookup_chunk_records mtu this blob count (i : nat) c :
  map (chunk_record mtu this blob) (seqZ 0 count) !! i = Some c →
  c = chunk_record mtu this blob (Z.of_nat i) ∧ Z.of_nat i < count.
Proof.
  rewrite list_lookup_fmap. intros Hc.
  destruct (seqZ 0 count !! i) as [j|] eqn:Hj; [|done].
  apply lookup_seqZ in Hj as [-> ?]. simpl in Hc.
  split; [|lia]. injection Hc as <-. f_equal.
Qed.

Lemma take_chunk_records mtu this blob count (i : nat) :
  Z.of_nat i ≤ count →
  take i (map (chunk_record mtu this blob) (seqZ 0 count))
  = map (chunk_record mtu this blob) (seqZ 0 (Z.of_nat i)).
Proof.
  intros Hi.
  replace count with (Z.of_nat i + (count - Z.of_nat i)) at 1 by lia.
  rewrite seqZ_app, map_app by lia.
  apply take_app_length'. rewrite length_map, length_seqZ. lia.
Qed.

Lemma seqZ_sorted (k : nat) : ∀ m, StronglySorted Z.lt (seqZ m (Z.of_nat k)).
Proof.
  induction k as [|k IH]; intros m; [constructor|].
  rewrite seqZ_cons by lia.
  replace (Z.pred (Z.of_nat (S k))) with (Z.of_nat k) by lia.
  constructor; [apply IH|].
  apply Forall_forall. intros j Hj%elem_of_seqZ. lia.
Qed.

Lemma chunk_records_sorted mtu this blob count :
  StronglySorted (λ a b, n a < n b)
    (map (chunk_record mtu this blob) (seqZ 0 count)).
Proof.
  destruct (Z.le_gt_cases 0 count) as [Hc|Hc].
  - apply (StronglySorted_fmap _ Z.lt); [by intros|].
    rewrite <- (Z2Nat.id count Hc). apply seqZ_sorted.
  - rewrite seqZ_nil by lia. constructor.
Qed.

#[local] Instance sequence_le_total : Total sequence_le.
Proof. intros a b. unfold sequence_le. lia. Qed.

#[local] Instance sequence_le_trans : Transitive sequence_le.
Proof. intros a b c. unfold sequence_le. lia. Qed.

Lemma chunk_records_sorted_le mtu this blob count :
  StronglySorted sequence_le
    (map (chunk_record mtu this blob) (seqZ 0 count)).
Proof.
  generalize (chunk_records_sorted mtu this blob count).
  induction 1 as [|c cs _ IH Hc]; constructor; [done|].
  eapply Forall_impl; [exact Hc|]. unfold sequence_le. simpl. lia.
Qed.

(** C1. For every byte buffer, the [data] payloads of the records that
    [chunk] returns, concatenated in ascending order of [n], are the
    buffer, byte for byte.  The records are returned in that order; and in
    whatever order they arrive, once arranged by ascending [n] (any
    arrangement that is sorted by [n], and the one [arrange_by_n]
    computes) their payloads concatenate to the buffer. *)
Theorem chunk_concat_roundtrip (this : Util) (blob : ArrayBuffer) :
  ∃ chunks this',
    chunk this blob = Returns (chunks, this') ∧
    map n chunks = seqZ 0 (Z.of_nat (length chunks)) ∧
    concat (map data chunks) = blob ∧
    (∀ received,
       received ≡ₚ chunks → StronglySorted (λ a b, n a < n b) received →
       concat (map data received) = blob) ∧
    (∀ arrived,
       arrived ≡ₚ chunks → concat (map data (arrange_by_n arrived)) = blob).
Proof.
  pose proof (count_bounds chunkedMTU chunkedMTU_pos blob) as [Hc _].
  eexists _, _. split; [apply chunk_closed_form|].
  rewrite map_n_chunk_records, length_chunk_records by done.
  rewrite (concat_data_all chunkedMTU chunkedMTU_pos).
  split; [done|]. split; [done|]. split.
  - intros received Hperm Hsorted.
    assert (received
            = map (chunk_record chunkedMTU this blob)
                  (seqZ 0 (ceil_div (byteLength blob) chunkedMTU))) as ->.
    { apply (StronglySorted_unique_strong (λ a b, n a < n b));
        [|done|apply chunk_records_sorted|done].
      intros x1 x2 _ _ H12 H21. lia. }
    by rewrite (concat_data_all chunkedMTU chunkedMTU_pos).
  - intros arrived Hperm.
    assert (arrange_by_n arrived
            = map (chunk_record chunkedMTU this blob)
                  (seqZ 0 (ceil_div (byteLength blob) chunkedMTU))) as ->.
    { unfold arrange_by_n.
      apply (StronglySorted_unique_strong sequence_le).
      - intros x1 x2 Hx1 Hx2 H12 H21.
        rewrite merge_sort_Permutation, Hperm in Hx1.
        apply list_elem_of_fmap in Hx1 as (j1 & -> & _).
        apply list_elem_of_fmap in Hx2 as (j2 & -> & _).
        unfold sequence_le in *. simpl in *. by replace j2 with j1 by lia.
      - apply StronglySorted_merge_sort; apply _.
      - apply chunk_records_sorted_le.
      - by rewrite merge_sort_Permutation. }
    by rewrite (concat_data_all chunkedMTU chunkedMTU_pos).
Qed.

Lemma chunk_concat_roundtrip_witness :
  ∃ c0 c1 this',
    chunk new_Util (replicate (Z.to_nat 16301) 7)
    = Returns ([c0; c1], this') ∧
    [c1; c0] ≡ₚ [c0; c1] ∧
    arrange_by_n [c1; c0] = [c0; c1] ∧
    concat (map data (arrange_by_n [c1; c0])) = replicate (Z.to_nat 16301) 7.
Proof.
  destruct (chunk_concat_roundtrip new_Util (replicate (Z.to_nat 16301) 7))
    as (chunks & this' & Hret & _ & _ & _ & Hany).
  pose proof Hret as Hrun. vm_compute in Hrun. injection Hrun as <- <-.
  eexists _, _, _. split; [exact Hret|].
  split; [apply Permutation_swap|].
  split; [reflexivity|].
  exact (Hany _ (Permutation_swap _ _ _)).
Defined.

(** C2, as the code has it: fragmenting an empty buffer returns the empty
    sequence, no record at all, and still advances the counter. *)
Theorem chunk_empty (this : Util) :
  chunk this [] = Returns ([], {| _dataCount := number_incr (_dataCount this) |}).
Proof. reflexivity. Qed.

(** C2 fails as stated: on the empty buffer a fresh instance returns no
    record, so not one record with [n = 0], [total = 1] and an empty
    payload. *)
Lemma chunk_empty_not_singleton :
  chunk new_Util [] = Returns ([], {| _dataCount := 2 |}) ∧
  ¬ ∃ c this',
      chunk new_Util [] = Returns ([c], this') ∧
      n c = 0 ∧ total c = 1 ∧ data c = [].
Proof.
  split; [reflexivity|]. intros (c & this' & Hc & _). discriminate Hc.
Qed.

(** C3. [chunk] returns exactly [ceil (byteLength / 16300)] records, each
    carrying that count as [total]; [ceil_div] is the ceiling, being the
    one [q] with [(q - 1) * mtu < size ≤ q * mtu].  A buffer of 40000
    zero bytes gives three records with [total = 3] and payloads of 16300,
    16300 and 7400 bytes. *)
Theorem chunk_count (this : Util) (blob : ArrayBuffer) :
  let count := ceil_div (byteLength blob) chunkedMTU in
  chunkedMTU = 16300 ∧
  (count - 1) * chunkedMTU < byteLength blob ≤ count * chunkedMTU ∧
  (∃ chunks this',
     chunk this blob = Returns (chunks, this') ∧
     Z.of_nat (length chunks) = count ∧
     Forall (λ c, total c = count) chunks) ∧
  (∃ chunks this',
     chunk this (replicate (Z.to_nat 40000) 0) = Returns (chunks, this') ∧
     map total chunks = [3; 3; 3] ∧
     map (λ c, byteLength (data c)) chunks = [16300; 16300; 7400]).
Proof.
  intros count. split; [done|].
  split; [apply ceil_div_bounds, chunkedMTU_pos|].
  pose proof (count_bounds chunkedMTU chunkedMTU_pos blob) as [Hc _].
  split.
  - eexists _, _. split; [apply chunk_closed_form|].
    split; [by apply length_chunk_records|].
    apply Forall_forall. intros c [j [-> _]]%list_elem_of_fmap. done.
  - eexists _, _. split; [apply chunk_closed_form|].
    split; vm_compute; reflexivity.
Qed.

(** C5. The sequence numbers of the records are [0, 1, ...,
    ceil (N / m) - 1], each once and in this order: the [i]-th record
    has [n = i]. *)
Theorem chunk_sequence_numbers (this : Util) (blob : ArrayBuffer) :
  let count := ceil_div (byteLength blob) chunkedMTU in
  ∃ chunks this',
    chunk this blob = Returns (chunks, this') ∧
    map n chunks = seqZ 0 count ∧
    NoDup (map n chunks) ∧
    (∀ k, k ∈ map n chunks ↔ 0 ≤ k < count) ∧
    (∀ (i : nat) c, chunks !! i = Some c → n c = Z.of_nat i).
Proof.
  intros count. eexists _, _. split; [apply chunk_closed_form|].
  rewrite map_n_chunk_records. fold count.
  split; [done|]. split; [apply NoDup_seqZ|]. split.
  - intros k. rewrite elem_of_seqZ. lia.
  - by intros i c [-> _]%lookup_chunk_records.
Qed.

Lemma chunk_sequence_numbers_witness :
  ∃ chunks this',
    chunk new_Util (replicate (Z.to_nat 16301) 0) = Returns (chunks, this') ∧
    ∃ c, chunks !! 1%nat = Some c ∧ n c = 1.
Proof.
  destruct (chunk_sequence_numbers new_Util (replicate (Z.to_nat 16301) 0))
    as (chunks & this' & Hret & _ & _ & _ & Hnth).
  exists chunks, this'. split; [exact Hret|].
  vm_compute in Hret. injection Hret as <- <-.
  eexists. split; [reflexivity|]. exact (Hnth 1%nat _ eq_refl).
Defined.

(** The 40000-byte example, by running the loop itself. *)
Example chunk_40000_zero_bytes :
  chunk new_Util (replicate (Z.to_nat 40000) 0)
  = Returns
      ([ {| __peerData := 1; n := 0; total := 3;
            data := replicate (Z.to_nat 16300) 0 |};
         {| __peerData := 1; n := 1; total := 3;
            data := replicate (Z.to_nat 16300) 0 |};
         {| __peerData := 1; n := 2; total := 3;
            data := replicate (Z.to_nat 7400) 0 |} ],
       {| _dataCount := 2 |}).
Proof. vm_compute. reflexivity. Qed.

(** C6. Every payload has at most [chunkedMTU] bytes, and exactly that
    many unless it is the last; the [i]-th payload is the slice of the
    buffer that starts at offset [i * chunkedMTU], which is where the
    payloads before it end, so the payloads are consecutive slices without
    gap or overlap, in order; their lengths add up to the length of the
    buffer and together they are the buffer. *)
Theorem chunk_payload_slices (this : Util) (blob : ArrayBuffer) :
  ∃ chunks this',
    chunk this blob = Returns (chunks, this') ∧
    (∀ (i : nat) c, chunks !! i = Some c →
       byteLength (data c) ≤ chunkedMTU ∧
       ((S i < length chunks)%nat → byteLength (data c) = chunkedMTU) ∧
       byteLength (concat (map data (take i chunks)))
         = Z.of_nat i * chunkedMTU ∧
       data c = take (length (data c))
                     (drop (Z.to_nat (Z.of_nat i * chunkedMTU)) blob)) ∧
    foldr Z.add 0 (map (λ c, byteLength (data c)) chunks) = byteLength blob ∧
    concat (map data chunks) = blob.
Proof.
  pose proof chunkedMTU_pos as Hm.
  pose proof (count_bounds chunkedMTU Hm blob) as [Hc0 Hc1].
  pose proof (ceil_div_bounds (byteLength blob) chunkedMTU Hm) as Hcd.
  eexists _, _. split; [apply chunk_closed_form|].
  set (count := ceil_div (byteLength blob) chunkedMTU) in *.
  split; [|split].
  - intros i c [-> Hi]%lookup_chunk_records.
    assert (Z.of_nat i * chunkedMTU < byteLength blob) as Hlt by nia.
    pose proof (length_chunk_record_data chunkedMTU Hm this blob (Z.of_nat i)
                  ltac:(fold count; lia)) as Hlen.
    fold (byteLength (data (chunk_record chunkedMTU this blob (Z.of_nat i))))
      in Hlen.
    repeat split.
    + lia.
    + rewrite length_map, length_seqZ. intros Hnext.
      assert (Z.of_nat i + 1 < count) by lia. nia.
    + rewrite take_chunk_records by lia.
      rewrite (concat_data_prefix chunkedMTU Hm) by (fold count; lia).
      unfold byteLength in *. rewrite length_take. lia.
    + simpl. rewrite slice_inside by lia.
      rewrite length_take, length_drop. f_equal.
      unfold byteLength in *. lia.
  - rewrite <- (concat_data_all chunkedMTU Hm this blob) at 2.
    fold count. by rewrite byteLength_concat, !map_map.
  - apply (concat_data_all chunkedMTU Hm).
Qed.

Lemma chunk_payload_slices_witness :
  ∃ chunks this',
    chunk new_Util (replicate (Z.to_nat 16301) 0) = Returns (chunks, this') ∧
    ∃ c, chunks !! 0%nat = Some c ∧ byteLength (data c) = chunkedMTU.
Proof.
  destruct (chunk_payload_slices new_Util (replicate (Z.to_nat 16301) 0))
    as (chunks & this' & Hret & Hnth & _).
  exists chunks, this'. split; [exact Hret|].
  vm_compute in Hret. injection Hret as <- <-.
  eexists. split; [reflexivity|].
  destruct (Hnth 0%nat _ eq_refl) as (_ & Hfull & _).
  apply Hfull. simpl. lia.
Defined.

(** ** No failure path in [chunk] *)







(** ** The transfer-id counter *)

Lemma MAX_EXACT_value : MAX_EXACT = 9007199254740992.
Proof. reflexivity. Qed.

Lemma number_incr_exact x : x < MAX_EXACT → number_incr x = x + 1.
Proof.
  intros Hx. unfold number_incr. by destruct (Z.ltb_spec x MAX_EXACT); [|lia].
Qed.

Lemma number_incr_saturated : number_incr MAX_EXACT = MAX_EXACT.
Proof. reflexivity. Qed.

(** One call: every record carries the counter's value at entry, and the
    counter has gone through [++] once, whatever the number of records. *)
Lemma chunk_transfer_id this blob :
  ∃ chunks,
    chunk this blob
    = Returns (chunks, {| _dataCount := number_incr (_dataCount this) |}) ∧
    Forall (λ c, __peerData c = _dataCount this) chunks.
Proof.
  eexists. split; [apply chunk_closed_form|].
  apply Forall_forall. by intros c [j [-> _]]%list_elem_of_fmap.
Qed.

Lemma chunk_calls_transfer_ids (blobs : list ArrayBuffer) :
  ∀ this,
    _dataCount this + Z.of_nat (length blobs) ≤ MAX_EXACT →
    ∃ results this',
      chunk_calls this blobs = Returns (results, this') ∧
      _dataCount this' = _dataCount this + Z.of_nat (length blobs) ∧
      length results = length blobs ∧
      ∀ (i : nat) chunks, results !! i = Some chunks →
        Forall (λ c, __peerData c = _dataCount this + Z.of_nat i) chunks.
Proof.
  induction blobs as [|blob blobs IH]; intros this Hbound.
  - exists [], this. simpl. repeat split; [lia|]. by intros i chunks.
  - simpl length in Hbound.
    destruct (chunk_transfer_id this blob) as (chunks & Hcall & Hids).
    rewrite number_incr_exact in Hcall by lia.
    destruct (IH {| _dataCount := _dataCount this + 1 |})
      as (results & this' & Hcalls & Hcount & Hlen & Hrest);
      [simpl; lia|].
    exists (chunks :: results), this'. simpl. rewrite Hcall. simpl.
    rewrite Hcalls. simpl in *. repeat split; [lia | by rewrite Hlen |].
    intros [|i] chunks'; simpl.
    + intros [= <-]. by rewrite Z.add_0_r.
    + intros Hi%Hrest. eapply Forall_impl; [exact Hi|].
      simpl. intros c ->. lia.
Qed.

(** C7, as the code has it: the counter starts at 1 and each call of
    [chunk] applies [++] to it once, however many records the call
    produces.  Over a run of fewer than [2^53] calls on a new instance,
    all records of the [i]-th call (counting from 0) carry the transfer id
    [1 + i], so ids are the same within a call, strictly increasing from
    call to call and never reused, and the counter ends at one plus the
    number of calls. *)
Theorem chunk_transfer_ids_increase (blobs : list ArrayBuffer) :
  Z.of_nat (length blobs) < MAX_EXACT →
  _dataCount new_Util = 1 ∧
  ∃ results this',
    chunk_calls new_Util blobs = Returns (results, this') ∧
    _dataCount this' = 1 + Z.of_nat (length blobs) ∧
    length results = length blobs ∧
    ∀ (i : nat) chunks, results !! i = Some chunks →
      Forall (λ c, __peerData c = 1 + Z.of_nat i) chunks.
Proof.
  intros Hcalls. split; [done|].
  apply (chunk_calls_transfer_ids blobs new_Util). simpl. lia.
Qed.

Lemma chunk_transfer_ids_increase_witness :
  Z.of_nat (length [[1; 2]; []; [3]]) < MAX_EXACT ∧
  ∃ results this',
    chunk_calls new_Util [[1; 2]; []; [3]] = Returns (results, this') ∧
    _dataCount this' = 1 + Z.of_nat (length [[1; 2]; []; [3] : ArrayBuffer]).
Proof.
  split; [reflexivity|].
  destruct (chunk_transfer_ids_increase [[1; 2]; []; [3]] eq_refl)
    as (_ & results & this' & Hrun & Hcount & _).
  by exists results, this'.
Defined.

(** The counter stays within the range on which [number_incr] is the
    increment of a double. *)
Lemma reachable_bounds this : reachable this → 1 ≤ _dataCount this ≤ MAX_EXACT.
Proof.
  induction 1 as [|this blob chunks this' _ IH Hcall].
  - rewrite MAX_EXACT_value. simpl. lia.
  - rewrite chunk_closed_form in Hcall. injection Hcall as _ <-. simpl.
    unfold number_incr. destruct (Z.ltb_spec (_dataCount this) MAX_EXACT); lia.
Qed.

(** Every counter value from 1 to [2^53] is reached by calling [chunk]. *)
Lemma reachable_counter (k : Z) :
  0 ≤ k → 1 + k ≤ MAX_EXACT → reachable {| _dataCount := 1 + k |}.
Proof.
  intros Hk. revert k Hk. apply (natlike_ind (λ k, 1 + k ≤ MAX_EXACT →
    reachable {| _dataCount := 1 + k |})).
  - intros _. apply reach_new.
  - intros k Hk IH Hbound.
    destruct (chunk_transfer_id {| _dataCount := 1 + k |} [])
      as (chunks & Hcall & _).
    rewrite number_incr_exact in Hcall by (simpl; lia).
    simpl in Hcall. replace (1 + Z.succ k) with (1 + k + 1) by lia.
    eapply reach_chunk; [apply IH; lia | exact Hcall].
Qed.

(** C7 fails as stated: an instance whose counter has reached [2^53]
    (after [2^53 - 1] calls) hands the same transfer id to the next two
    calls, and [++] no longer changes the counter. *)
Lemma chunk_transfer_id_reused :
  reachable {| _dataCount := MAX_EXACT |} ∧
  chunk_calls {| _dataCount := MAX_EXACT |} [[7]; [8]]
  = Returns
      ([ [ {| __peerData := MAX_EXACT; n := 0; data := [7]; total := 1 |} ];
         [ {| __peerData := MAX_EXACT; n := 0; data := [8]; total := 1 |} ] ],
       {| _dataCount := MAX_EXACT |}).
Proof.
  split; [|reflexivity].
  apply (reachable_counter (MAX_EXACT - 1)); rewrite MAX_EXACT_value; lia.
Qed.

(** C8. [concatArrayBuffers] returns an array whose length is the sum of
    the lengths of the inputs and whose content is the inputs laid out one
    after the other in list order: byte [j] of the [i]-th input sits at
    the offset given by the lengths of the inputs before it, plus [j].  On
    the empty list the array is empty. *)
Theorem concatArrayBuffers_layout (bufs : list Uint8Array) :
  concatArrayBuffers [] = Returns [] ∧
  ∃ result,
    concatArrayBuffers bufs = Returns result ∧
    byteLength result = foldr Z.add 0 (map byteLength bufs) ∧
    result = concat bufs ∧
    ∀ (i j : nat) buf b,
      bufs !! i = Some buf → buf !! j = Some b →
      result !! (length (concat (take i bufs)) + j)%nat = Some b.
Proof.
  split; [reflexivity|].
  exists (concat bufs). split; [apply concatArrayBuffers_concat|].
  split; [apply byteLength_concat|]. split; [done|].
  intros i j buf b Hi Hj.
  assert (concat bufs
          = concat (take i bufs) ++ buf ++ concat (drop (S i) bufs)) as ->.
  { rewrite <- (take_drop_middle bufs i buf Hi) at 1.
    by rewrite concat_app. }
  rewrite lookup_app_r by lia.
  replace (length (concat (take i bufs)) + j - length (concat (take i bufs)))%nat
    with j by lia.
  rewrite lookup_app_l; [done|]. by apply lookup_lt_Some in Hj.
Qed.

Lemma concatArrayBuffers_layout_witness :
  ∃ result,
    concatArrayBuffers [[1; 2]; []; [3; 4; 5]] = Returns result ∧
    result !! 4%nat = Some 5.
Proof.
  destruct (concatArrayBuffers_layout [[1; 2]; []; [3; 4; 5]])
    as (_ & result & Hret & _ & _ & Hlayout).
  exists result. split; [exact Hret|].
  exact (Hlayout 2%nat 2%nat [3; 4; 5] 5 eq_refl eq_refl).
Defined.

(** ** [Util.binaryStringToArrayBuffer] *)

Lemma land_0xff c : Z.land c 255 = c `mod` 256 ∧ 0 ≤ Z.land c 255 < 256.
Proof.
  change 255 with (Z.ones 8). rewrite Z.land_ones by lia.
  split; [done|]. apply Z.mod_pos_bound. lia.
Qed.

(** The loop after [k] iterations: the first [k] bytes are set, the rest
    still zero. *)
Lemma fill_loop_prefix (binary : JSString) (k : nat) :
  (k ≤ length binary)%nat →
  foldl (λ byteArray i,
           Uint8Array_store byteArray i (and_0xff (charCodeAt binary i)))
        (replicate (length binary) 0) (seqZ 0 (Z.of_nat k))
  = map (λ c, Z.land c 255) (take k binary)
    ++ replicate (length binary - k) 0.
Proof.
  induction k as [|k IH]; intros Hk.
  - simpl. by rewrite Nat.sub_0_r.
  - rewrite Nat2Z.inj_succ, <- Z.add_1_r, seqZ_app by lia.
    rewrite foldl_app, IH by lia. simpl.
    destruct (lookup_lt_is_Some_2 binary k ltac:(lia)) as [c Hc].
    replace (Z.of_nat 0 + (0 + Z.of_nat k)) with (Z.of_nat k) by lia.
    unfold Uint8Array_store, charCodeAt.
    destruct (Z.ltb_spec (Z.of_nat k) 0); [lia|].
    rewrite Nat2Z.id, Hc. simpl.
    destruct (land_0xff c) as [_ Hrange].
    rewrite Z.mod_small by done.
    rewrite (take_S_r binary k c Hc), map_app. simpl.
    replace (length binary - k)%nat with (S (length binary - S k)) by lia.
    rewrite insert_app_r_alt; rewrite length_map, length_take; [|lia].
    replace (k - k `min` length binary)%nat with O by lia.
    simpl. by rewrite <- app_assoc.
Qed.

Lemma binaryStringToArrayBuffer_map (binary : JSString) :
  binaryStringToArrayBuffer binary
  = Returns (map (λ c, Z.land c 255) binary).
Proof.
  unfold binaryStringToArrayBuffer, new_Uint8Array.
  destruct (Z.ltb_spec (Z.of_nat (length binary)) 0); [lia|]. simpl.
  rewrite Nat2Z.id, fill_loop_prefix by done.
  by rewrite take_ge, Nat.sub_diag, app_nil_r.
Qed.

(** C10. [binaryStringToArrayBuffer] returns a buffer with as many bytes
    as the string has code units, the [i]-th byte being the [i]-th char
    code masked with [0xff], that is, reduced modulo 256. *)
Theorem binaryStringToArrayBuffer_bytes (binary : JSString) :
  ∃ buffer,
    binaryStringToArrayBuffer binary = Returns buffer ∧
    byteLength buffer = Z.of_nat (length binary) ∧
    ∀ (i : nat),
      buffer !! i = (λ c, Z.land c 255) <$> binary !! i ∧
      buffer !! i = (λ c, c `mod` 256) <$> binary !! i.
Proof.
  eexists. split; [apply binaryStringToArrayBuffer_map|].
  split; [unfold byteLength; by rewrite length_map|].
  intros i. rewrite list_lookup_fmap. split; [done|].
  destruct (binary !! i) as [c|]; [|done]. simpl.
  by destruct (land_0xff c) as [-> _].
Qed.

Example binaryStringToArrayBuffer_wide_code_units :
  binaryStringToArrayBuffer [72; 105; 256; 8364; 65535]
  = Returns [72; 105; 0; 172; 255].
Proof. reflexivity. Qed.

(** ** Matching by derivatives is matching *)

Module RegExpFacts.
Import RegExp.

#[local] Hint Constructors matches : core.

Lemma matches_nil_nullable p : matches p [] → nullable p = true.
Proof.
  intros Hm. remember [] as s eqn:Hs.
  induction Hm as [|cls c Hc|p q s t _ IHp _ IHq|p q s _ IH|p q s _ IH
                  |p|p s t _ _ _ _]; simpl; try done.
  - apply app_eq_nil in Hs as [-> ->]. by rewrite IHp, IHq.
  - by rewrite IH.
  - rewrite IH by done. apply orb_true_r.
Qed.

Lemma nullable_matches_nil p : nullable p = true → matches p [].
Proof.
  induction p as [|cls|p IHp q IHq|p IHp q IHq|p IH]; simpl; intros Hn;
    try done; auto.
  - apply andb_true_iff in Hn as [Hp Hq].
    change (@nil Z) with (@nil Z ++ []). auto.
  - apply orb_true_iff in Hn as [Hp|Hq]; auto.
Qed.

Lemma matches_seq_inv p q s :
  matches (Seq p q) s →
  ∃ s1 s2, s = s1 ++ s2 ∧ matches p s1 ∧ matches q s2.
Proof. inversion 1; subst; eauto. Qed.

Lemma matches_star_cons_inv p c s :
  matches (Star p) (c :: s) →
  ∃ s1 s2, s = s1 ++ s2 ∧ matches p (c :: s1) ∧ matches (Star p) s2.
Proof.
  intros Hm. remember (Star p) as r eqn:Hr. remember (c :: s) as w eqn:Hw.
  revert c s Hw.
  induction Hm as [| | | | | |p' s1 s2 Hp _ Hstar IH]; try done.
  injection Hr as ->. intros c s Hw.
  destruct s1 as [|c' s1]; simpl in Hw.
  - by apply IH.
  - injection Hw as -> <-. eauto.
Qed.

Lemma matches_opt_alt a b s :
  matches_opt (alt_opt a b) s ↔ matches_opt a s ∨ matches_opt b s.
Proof.
  destruct a as [p|], b as [q|]; simpl; try tauto.
  split; [inversion 1; subst; auto | intros [?|?]; auto].
Qed.

Lemma matches_opt_seq o q s :
  matches_opt ((λ p', Seq p' q) <$> o) s
  ↔ ∃ s1 s2, s = s1 ++ s2 ∧ matches_opt o s1 ∧ matches q s2.
Proof.
  destruct o as [p|]; simpl.
  - split; [apply matches_seq_inv | intros (s1 & s2 & -> & ? & ?); auto].
  - split; [done | by intros (? & ? & _ & [] & _)].
Qed.

(** The derivative by [c] matches [s] exactly when the pattern matches
    [c :: s]. *)
Lemma deriv_matches c p : ∀ s, matches_opt (deriv c p) s ↔ matches p (c :: s).
Proof.
  induction p as [|cls|p IHp q IHq|p IHp q IHq|p IH]; intros s; simpl.
  - split; [done | inversion 1].
  - destruct (cls c) eqn:Hc; simpl.
    + split; [inversion 1; subst; auto | inversion 1; subst; auto].
    + split; [done | inversion 1; congruence].
  - rewrite matches_opt_alt, matches_opt_seq. split.
    + intros [(s1 & s2 & -> & Hp & Hq)|Hq].
      * apply IHp in Hp. change (c :: s1 ++ s2) with ((c :: s1) ++ s2). auto.
      * destruct (nullable p) eqn:Hn; [|done].
        apply IHq in Hq. change (c :: s) with ([] ++ c :: s).
        auto using nullable_matches_nil.
    + intros (s1 & s2 & Hs & Hp & Hq)%matches_seq_inv.
      destruct s1 as [|c' s1]; simpl in Hs.
      * subst s2. right. rewrite (matches_nil_nullable p Hp). by apply IHq.
      * injection Hs as <- ->. left. exists s1, s2. by rewrite IHp.
  - rewrite matches_opt_alt, IHp, IHq.
    split; [intros [?|?]; auto | inversion 1; subst; auto].
  - rewrite matches_opt_seq. split.
    + intros (s1 & s2 & -> & Hp & Hstar). apply IH in Hp.
      change (c :: s1 ++ s2) with ((c :: s1) ++ s2). auto.
    + intros (s1 & s2 & -> & Hp & Hstar)%matches_star_cons_inv.
      exists s1, s2. by rewrite IH.
Qed.

Lemma accepts_matches s : ∀ p, accepts p s = true ↔ matches p s.
Proof.
  induction s as [|c s IH]; intros p; simpl.
  - split; [apply nullable_matches_nil | apply matches_nil_nullable].
  - rewrite <- deriv_matches. destruct (deriv c p) as [p'|]; simpl.
    + apply IH.
    + split; [done | tauto].
Qed.

(** A starred pattern matches the concatenations of pieces that each
    match the pattern. *)
Lemma matches_star_pieces p s :
  matches (Star p) s
  ↔ ∃ pieces, Forall (matches p) pieces ∧ s = concat pieces.
Proof.
  split.
  - intros Hm. remember (Star p) as r eqn:Hr.
    induction Hm as [| | | | | |p' s1 s2 Hp _ Hstar IH]; try done.
    + by exists [].
    + injection Hr as ->. destruct (IH eq_refl) as (pieces & Hall & ->).
      exists (s1 :: pieces). auto.
  - intros (pieces & Hall & ->).
    induction Hall as [|piece pieces Hp _ IH]; simpl; auto.
Qed.

Lemma matches_star_class cls s :
  matches (Star (Class cls)) s ↔ Forall (λ c, cls c = true) s.
Proof.
  rewrite matches_star_pieces. split.
  - intros (pieces & Hall & ->).
    induction Hall as [|piece pieces Hp _ IH]; simpl; [done|].
    inversion Hp; subst. simpl. auto.
  - intros Hall. exists (map (λ c, [c]) s). split.
    + apply Forall_forall. intros piece [c [-> Hc]]%list_elem_of_fmap.
      rewrite Forall_forall in Hall. auto.
    + clear Hall. induction s as [|c s IH]; simpl; [done | by f_equal].
Qed.

Lemma matches_plus_class cls s :
  matches (Plus (Class cls)) s ↔ s ≠ [] ∧ Forall (λ c, cls c = true) s.
Proof.
  unfold Plus. split.
  - intros (s1 & s2 & -> & H1 & H2%matches_star_class)%matches_seq_inv.
    inversion H1; subst. simpl. split; [done | auto].
  - intros [Hne Hall]. destruct Hall as [|c s Hc Hall]; [done|].
    change (c :: s) with ([c] ++ s).
    apply m_seq; [auto | by apply matches_star_class].
Qed.
End RegExpFacts.

(** ** [Util.validateId] *)

Lemma matches_separated_piece (piece : JSString) :
  RegExp.matches
    (RegExp.Seq (RegExp.Class separator) (RegExp.Plus (RegExp.Class alnum)))
    piece
  ↔ ∃ c g, piece = c :: g ∧ separator c = true ∧ alnum_group g.
Proof.
  split.
  - intros (s1 & s2 & -> & Hsep & Hgrp)%RegExpFacts.matches_seq_inv.
    apply RegExpFacts.matches_plus_class in Hgrp.
    inversion Hsep; subst. by exists c, s2.
  - intros (c & g & -> & Hsep & Hgrp).
    change (c :: g) with ([c] ++ g). apply RegExp.m_seq.
    + by apply RegExp.m_class.
    + by apply RegExpFacts.matches_plus_class.
Qed.

Lemma matches_separated_pieces (pieces : list JSString) :
  Forall (RegExp.matches
            (RegExp.Seq (RegExp.Class separator)
                        (RegExp.Plus (RegExp.Class alnum)))) pieces
  ↔ ∃ more : list (Z * JSString),
      Forall (λ sg, separator sg.1 = true ∧ alnum_group sg.2) more ∧
      pieces = map (λ sg, sg.1 :: sg.2) more.
Proof.
  split.
  - induction 1 as [|piece pieces Hp _ (more & Hmore & ->)].
    + by exists [].
    + apply matches_separated_piece in Hp as (c & g & -> & Hc & Hg).
      exists ((c, g) :: more). split; [|done]. by constructor.
  - intros (more & Hmore & ->).
    induction Hmore as [|[c g] more [Hc Hg] _ IH]; simpl; constructor;
      [|done].
    apply matches_separated_piece. by exists c, g.
Qed.

(** The pattern of [validateId] matches exactly the separated groups. *)
Lemma id_pattern_groups (s : JSString) :
  RegExp.matches id_pattern s ↔ separated_groups s.
Proof.
  unfold id_pattern, separated_groups. split.
  - intros (g & t & -> & Hg & Ht)%RegExpFacts.matches_seq_inv.
    apply RegExpFacts.matches_plus_class in Hg.
    apply RegExpFacts.matches_star_pieces in Ht as (pieces & Hall & ->).
    apply matches_separated_pieces in Hall as (more & Hmore & ->).
    by exists g, more.
  - intros (g & more & Hg & Hmore & ->).
    apply RegExp.m_seq; [by apply RegExpFacts.matches_plus_class|].
    apply RegExpFacts.matches_star_pieces.
    exists (map (λ sg, sg.1 :: sg.2) more). split; [|done].
    apply matches_separated_pieces. by exists more.
Qed.

Lemma separated_groups_nonempty (s : JSString) : separated_groups s → s ≠ [].
Proof.
  intros (g & more & [Hne _] & _ & ->). by destruct g.
Qed.

(** C9. [validateId] returns true for the empty string; for a string
    that is not empty it returns true exactly when the string is made of
    groups of ASCII letters and digits separated by single spaces,
    underscores or hyphens, which is what the pattern
    [/^[A-Za-z0-9]+(?:[ _-][A-Za-z0-9]+)*$/] matches. *)
Theorem validateId_groups (id : JSString) :
  validateId [] = true ∧
  (validateId id = true ↔ id = [] ∨ separated_groups id) ∧
  (id ≠ [] → (validateId id = true ↔ separated_groups id)) ∧
  (separated_groups id ↔ RegExp.matches id_pattern id).
Proof.
  assert (validateId id = true ↔ id = [] ∨ separated_groups id) as Hiff.
  { unfold validateId, RegExp.test_anchored.
    rewrite orb_true_iff, RegExpFacts.accepts_matches, id_pattern_groups.
    destruct id; simpl; split; intros [?|?]; auto; done. }
  split; [reflexivity|]. split; [exact Hiff|]. split.
  - intros Hne. rewrite Hiff. split; [by intros [?|?] | auto].
  - symmetry. apply id_pattern_groups.
Qed.

Lemma validateId_groups_witness :
  code_units "my peer_id-7" ≠ [] ∧
  (validateId (code_units "my peer_id-7") = true
   ↔ separated_groups (code_units "my peer_id-7")).
Proof.
  split; [done|].
  destruct (validateId_groups (code_units "my peer_id-7"))
    as (_ & _ & Hiff & _).
  apply Hiff. done.
Defined.

Example validateId_examples :
  validateId (code_units "") = true ∧
  validateId (code_units "peer42") = true ∧
  validateId (code_units "my peer_id-7") = true ∧
  validateId (code_units "my--peer") = false ∧
  validateId (code_units "-peer") = false ∧
  validateId (code_units "peer ") = false ∧
  validateId (code_units "peer.js") = false ∧
  validateId [112; 233] = false.
Proof. repeat split. Qed.

(** ** More on [Util.chunk] *)

(** Every record is well formed: its sequence number lies below its
    [total], and its payload is not empty and has at most [chunkedMTU]
    bytes. *)
Theorem chunk_records_wellformed (this : Util) (blob : ArrayBuffer) :
  ∃ chunks this',
    chunk this blob = Returns (chunks, this') ∧
    Forall (λ c, 0 ≤ n c < total c ∧
                 1 ≤ byteLength (data c) ≤ chunkedMTU) chunks.
Proof.
  pose proof chunkedMTU_pos as Hm.
  pose proof (ceil_div_bounds (byteLength blob) chunkedMTU Hm) as Hcd.
  eexists _, _. split; [apply chunk_closed_form|].
  apply Forall_forall. intros c [j [-> Hj%elem_of_seqZ]]%list_elem_of_fmap.
  split; [simpl; lia|].
  pose proof (length_chunk_record_data chunkedMTU Hm this blob j
                ltac:(lia)) as Hlen.
  assert (j * chunkedMTU < byteLength blob) by nia.
  change (byteLength (data (chunk_record chunkedMTU this blob j)))
    with (Z.of_nat (length (data (chunk_record chunkedMTU this blob j)))).
  rewrite Hlen. lia.
Qed.

(** A buffer that is not empty and fits in one MTU comes back as one
    record, numbered 0 of 1, whose payload is the whole buffer. *)
Theorem chunk_single (this : Util) (blob : ArrayBuffer) :
  0 < byteLength blob ≤ chunkedMTU →
  chunk this blob
  = Returns ([ {| __peerData := _dataCount this; n := 0;
                  data := blob; total := 1 |} ],
             {| _dataCount := number_incr (_dataCount this) |}).
Proof.
  intros Hsize. rewrite chunk_closed_form.
  rewrite (ceil_div_unique (byteLength blob) chunkedMTU 1 chunkedMTU_pos)
    by lia.
  simpl. do 3 f_equal. unfold chunk_record. f_equal.
  - rewrite slice_inside by lia.
    rewrite Z.min_l by lia. simpl. rewrite drop_0.
    apply take_ge. unfold byteLength. lia.
  - apply ceil_div_unique; [apply chunkedMTU_pos | lia].
Qed.

Lemma chunk_single_witness :
  0 < byteLength [104; 105] ≤ chunkedMTU ∧
  chunk new_Util [104; 105]
  = Returns ([ {| __peerData := 1; n := 0; data := [104; 105]; total := 1 |} ],
             {| _dataCount := 2 |}).
Proof.
  assert (0 < byteLength [104; 105] ≤ chunkedMTU) as Hsize by (by compute).
  split; [exact Hsize|]. exact (chunk_single new_Util [104; 105] Hsize).
Defined.

Lemma slice_app_l (a b : ArrayBuffer) (lo hi : Z) :
  0 ≤ lo ≤ hi → hi ≤ byteLength a →
  slice (a ++ b) lo hi = slice a lo hi.
Proof.
  intros Hlo Hhi. unfold byteLength in Hhi.
  rewrite !slice_inside by (unfold byteLength; rewrite ?length_app; lia).
  rewrite drop_app_le by lia.
  apply take_app_le. rewrite length_drop. lia.
Qed.

Lemma slice_app_r (a b : ArrayBuffer) (lo hi : Z) :
  0 ≤ lo ≤ hi → hi ≤ byteLength b →
  slice (a ++ b) (byteLength a + lo) (byteLength a + hi) = slice b lo hi.
Proof.
  intros Hlo Hhi. unfold byteLength in *.
  rewrite !slice_inside by (unfold byteLength; rewrite ?length_app; lia).
  rewrite drop_app_ge by lia.
  f_equal; [lia|]. f_equal. lia.
Qed.

(** When the first of two buffers ends on a chunk boundary, the payloads
    of their concatenation are the payloads of the first followed by the
    payloads of the second. *)
Theorem chunk_payloads_app (this : Util) (a b : ArrayBuffer) :
  (chunkedMTU | byteLength a) →
  ∃ ca cb cab this_a this_b this_ab,
    chunk this a = Returns (ca, this_a) ∧
    chunk this b = Returns (cb, this_b) ∧
    chunk this (a ++ b) = Returns (cab, this_ab) ∧
    map data cab = map data ca ++ map data cb.
Proof.
  intros [k Hk]. pose proof chunkedMTU_pos as Hm.
  assert (0 ≤ k) as Hk0 by (unfold byteLength in Hk; nia).
  eexists _, _, _, _, _, _.
  split; [apply chunk_closed_form|]. split; [apply chunk_closed_form|].
  split; [apply chunk_closed_form|].
  pose proof (ceil_div_bounds (byteLength b) chunkedMTU Hm) as Hcb.
  pose proof (count_bounds chunkedMTU Hm b) as [Hcb0 _].
  assert (byteLength (a ++ b) = byteLength a + byteLength b) as Hab
    by (unfold byteLength; rewrite length_app; lia).
  set (cb := ceil_div (byteLength b) chunkedMTU) in *.
  rewrite (ceil_div_unique (byteLength a) chunkedMTU k Hm) by lia.
  rewrite (ceil_div_unique (byteLength (a ++ b)) chunkedMTU (k + cb) Hm)
    by (rewrite Hab; nia).
  rewrite seqZ_app by lia. replace (0 + k) with (k + 0) by lia.
  rewrite <- (fmap_add_seqZ k 0 cb).
  rewrite !map_app, !map_map. f_equal.
  - apply map_ext_in. intros j Hj%list_elem_of_In%elem_of_seqZ. simpl.
    assert ((j + 1) * chunkedMTU ≤ byteLength a) by nia.
    assert (0 ≤ byteLength b) by (unfold byteLength; lia).
    rewrite Hab. rewrite !Z.min_r by lia. apply slice_app_l; nia.
  - apply map_ext_in. intros j Hj%list_elem_of_In%elem_of_seqZ. simpl.
    rewrite Hab.
    replace ((k + j) * chunkedMTU) with (byteLength a + j * chunkedMTU) by lia.
    replace ((byteLength a + byteLength b)
               `min` ((k + j + 1) * chunkedMTU))
      with (byteLength a + byteLength b `min` ((j + 1) * chunkedMTU)) by lia.
    assert (0 ≤ j * chunkedMTU < byteLength b) by nia.
    apply slice_app_r; lia.
Qed.

Lemma chunk_payloads_app_witness :
  (chunkedMTU | byteLength (replicate (Z.to_nat 16300) 1)) ∧
  ∃ ca cb cab this_a this_b this_ab,
    chunk new_Util (replicate (Z.to_nat 16300) 1) = Returns (ca, this_a) ∧
    chunk new_Util [2; 3] = Returns (cb, this_b) ∧
    chunk new_Util (replicate (Z.to_nat 16300) 1 ++ [2; 3])
    = Returns (cab, this_ab) ∧
    map data cab = map data ca ++ map data cb.
Proof.
  assert (chunkedMTU | byteLength (replicate (Z.to_nat 16300) 1)) as Hdiv.
  { exists 1. unfold byteLength. by rewrite length_replicate. }
  split; [exact Hdiv|].
  exact (chunk_payloads_app new_Util (replicate (Z.to_nat 16300) 1) [2; 3] Hdiv).
Defined.

(** ** More on the transfer-id counter *)

Lemma number_incr_min x :
  x ≤ MAX_EXACT → number_incr x = Z.min (x + 1) MAX_EXACT.
Proof.
  intros Hx. unfold number_incr. destruct (Z.ltb_spec x MAX_EXACT); lia.
Qed.

Lemma chunk_calls_saturating (blobs : list ArrayBuffer) :
  ∀ this,
    _dataCount this ≤ MAX_EXACT →
    ∃ results this',
      chunk_calls this blobs = Returns (results, this') ∧
      length results = length blobs ∧
      _dataCount this'
        = Z.min (_dataCount this + Z.of_nat (length blobs)) MAX_EXACT ∧
      ∀ (i : nat) chunks, results !! i = Some chunks →
        Forall (λ c, __peerData c
                     = Z.min (_dataCount this + Z.of_nat i) MAX_EXACT) chunks.
Proof.
  induction blobs as [|blob blobs IH]; intros this Hbound.
  - exists [], this. simpl. repeat split; [lia|]. by intros i chunks.
  - destruct (chunk_transfer_id this blob) as (chunks & Hcall & Hids).
    rewrite number_incr_min in Hcall by done.
    destruct (IH {| _dataCount := Z.min (_dataCount this + 1) MAX_EXACT |})
      as (results & this' & Hcalls & Hlen & Hcount & Hrest); [simpl; lia|].
    exists (chunks :: results), this'. simpl. rewrite Hcall. simpl.
    rewrite Hcalls. simpl in *.
    repeat split; [by rewrite Hlen | lia |].
    intros [|i] chunks'; simpl.
    + intros [= <-]. eapply Forall_impl; [exact Hids|].
      simpl. intros c ->. lia.
    + intros Hi%Hrest. eapply Forall_impl; [exact Hi|].
      simpl. intros c ->. lia.
Qed.

(** Whatever the number of calls on a new instance, all of them return;
    the [i]-th call (from 0) stamps its records with [min (1 + i, 2^53)]
    and the counter ends at [min (1 + calls, 2^53)]: it never decreases,
    never passes [2^53] and, once there, stays. *)
Theorem chunk_counter_saturates (blobs : list ArrayBuffer) :
  ∃ results this',
    chunk_calls new_Util blobs = Returns (results, this') ∧
    length results = length blobs ∧
    _dataCount this' = Z.min (1 + Z.of_nat (length blobs)) MAX_EXACT ∧
    ∀ (i : nat) chunks, results !! i = Some chunks →
      Forall (λ c, __peerData c = Z.min (1 + Z.of_nat i) MAX_EXACT) chunks.
Proof.
  apply (chunk_calls_saturating blobs new_Util).
  rewrite MAX_EXACT_value. simpl. lia.
Qed.

(** ** More on [binaryStringToArrayBuffer] and [concatArrayBuffers] *)

(** Every byte of the buffer is a byte: it lies in [0 .. 255], whatever
    the code units of the string. *)
Theorem binaryStringToArrayBuffer_range (binary : JSString) :
  ∃ buffer,
    binaryStringToArrayBuffer binary = Returns buffer ∧
    Forall (λ b, 0 ≤ b < 256) buffer.
Proof.
  eexists. split; [apply binaryStringToArrayBuffer_map|].
  apply Forall_forall. intros b [c [-> _]]%list_elem_of_fmap.
  apply land_0xff.
Qed.

(** On a binary string, one whose code units are all below 256, nothing
    is lost: the buffer holds the code units themselves. *)
Theorem binaryStringToArrayBuffer_binary (binary : JSString) :
  Forall (λ c, 0 ≤ c < 256) binary →
  binaryStringToArrayBuffer binary = Returns binary.
Proof.
  intros Hbin. rewrite binaryStringToArrayBuffer_map. f_equal.
  induction Hbin as [|c s Hc _ IH]; simpl; [done|].
  destruct (land_0xff c) as [-> _]. rewrite Z.mod_small by done.
  by rewrite IH.
Qed.

Lemma binaryStringToArrayBuffer_binary_witness :
  Forall (λ c, 0 ≤ c < 256) [0; 80; 75; 255] ∧
  binaryStringToArrayBuffer [0; 80; 75; 255] = Returns [0; 80; 75; 255].
Proof.
  assert (Forall (λ c, 0 ≤ c < 256) [0; 80; 75; 255]) as Hbin
    by (repeat constructor; done).
  split; [exact Hbin|].
  exact (binaryStringToArrayBuffer_binary [0; 80; 75; 255] Hbin).
Defined.

(** Two strings give the same buffer exactly when they have the same
    length and their code units agree modulo 256, position by position. *)
Theorem binaryStringToArrayBuffer_same (s t : JSString) :
  binaryStringToArrayBuffer s = binaryStringToArrayBuffer t
  ↔ Forall2 (λ c d, c `mod` 256 = d `mod` 256) s t.
Proof.
  rewrite !binaryStringToArrayBuffer_map. split.
  - intros [= Heq]. revert t Heq.
    induction s as [|c s IH]; intros [|d t] Heq; simpl in Heq; try done.
    injection Heq as Hcd Hst. constructor; [|by apply IH].
    destruct (land_0xff c) as [<- _]. by destruct (land_0xff d) as [<- _].
  - intros Hst. f_equal.
    induction Hst as [|c d s t Hcd _ IH]; simpl; [done|].
    destruct (land_0xff c) as [-> _]. destruct (land_0xff d) as [-> _].
    by rewrite Hcd, IH.
Qed.

(** The buffer of a concatenated string is the buffer of the first
    string followed by the buffer of the second: each byte depends only on
    the code unit at its own position. *)
Theorem binaryStringToArrayBuffer_app (s t : JSString) :
  ∃ bs bt,
    binaryStringToArrayBuffer s = Returns bs ∧
    binaryStringToArrayBuffer t = Returns bt ∧
    binaryStringToArrayBuffer (s ++ t) = Returns (bs ++ bt).
Proof.
  eexists _, _.
  split; [apply binaryStringToArrayBuffer_map|].
  split; [apply binaryStringToArrayBuffer_map|].
  by rewrite binaryStringToArrayBuffer_map, map_app.
Qed.

(** Joining in two stages is joining at once: the results for two lists
    of arrays, joined, are the result for the two lists together; in
    particular arrays may be joined as they arrive. *)
Theorem concatArrayBuffers_app (xs ys : list Uint8Array) :
  ∃ rx ry,
    concatArrayBuffers xs = Returns rx ∧
    concatArrayBuffers ys = Returns ry ∧
    concatArrayBuffers [rx; ry] = concatArrayBuffers (xs ++ ys).
Proof.
  eexists _, _.
  split; [apply concatArrayBuffers_concat|].
  split; [apply concatArrayBuffers_concat|].
  rewrite !concatArrayBuffers_concat. simpl.
  by rewrite app_nil_r, concat_app.
Qed.

(** Each input can be read back from the result: slicing the result at
    the offset of the [i]-th input, over its length, gives that input. *)
Theorem concatArrayBuffers_slice (bufs : list Uint8Array) (i : nat)
    (buf : Uint8Array) :
  bufs !! i = Some buf →
  ∃ result,
    concatArrayBuffers bufs = Returns result ∧
    let offset := byteLength (concat (take i bufs)) in
    slice result offset (offset + byteLength buf) = buf.
Proof.
  intros Hi. exists (concat bufs). split; [apply concatArrayBuffers_concat|].
  intros offset.
  rewrite <- (take_drop_middle bufs i buf Hi) at 1.
  rewrite concat_app. simpl.
  rewrite <- (Z.add_0_r offset) at 1. unfold offset.
  rewrite slice_app_r; unfold byteLength; rewrite ?length_app; try lia.
  rewrite slice_app_l; unfold byteLength; try lia.
  rewrite slice_inside by (unfold byteLength; lia).
  rewrite Z.sub_0_r, Nat2Z.id. simpl. rewrite drop_0. by apply take_ge.
Qed.

Lemma concatArrayBuffers_slice_witness :
  ∃ result,
    concatArrayBuffers [[1; 2]; [3; 4; 5]; [6]] = Returns result ∧
    slice result 2 5 = [3; 4; 5].
Proof.
  exact (concatArrayBuffers_slice [[1; 2]; [3; 4; 5]; [6]] 1 [3; 4; 5]
           eq_refl).
Defined.

(** ** More on [Util.validateId]: the scan *)

Lemma alnum_not_separator c : alnum c = true → separator c = false.
Proof.
  unfold alnum, separator, in_range. intros Hc.
  destruct (Z.eqb_spec c 32), (Z.eqb_spec c 95), (Z.eqb_spec c 45);
    subst; simpl in *; done.
Qed.

Lemma id_scan_alnum_run g t :
  Forall (λ c, alnum c = true) g → id_scan true (g ++ t) = id_scan true t.
Proof. induction 1 as [|c g Hc _ IH]; simpl; [done|]. by rewrite Hc. Qed.

Lemma id_scan_group st g t :
  alnum_group g → id_scan st (g ++ t) = id_scan true t.
Proof.
  intros [Hne Hall]. destruct Hall as [|c g Hc Hall]; [done|].
  simpl. rewrite Hc. by apply id_scan_alnum_run.
Qed.

Lemma id_scan_separated (more : list (Z * JSString)) :
  Forall (λ sg, separator sg.1 = true ∧ alnum_group sg.2) more →
  id_scan true (concat (map (λ sg, sg.1 :: sg.2) more)) = true.
Proof.
  induction 1 as [|[c g] more [Hc Hg] _ IH]; simpl in *; [done|].
  destruct (alnum c) eqn:Hac.
  - apply alnum_not_separator in Hac. congruence.
  - rewrite Hc. simpl. by rewrite (id_scan_group false g _ Hg).
Qed.

(** What the scan has accepted, read back as groups: a first group, which
    may be empty only if the scan started after a letter or digit, and
    separated groups after it. *)
Lemma id_scan_decompose s : ∀ st,
  id_scan st s = true →
  ∃ (g : JSString) (more : list (Z * JSString)),
    Forall (λ c, alnum c = true) g ∧ (st = false → g ≠ []) ∧
    Forall (λ sg, separator sg.1 = true ∧ alnum_group sg.2) more ∧
    s = g ++ concat (map (λ sg, sg.1 :: sg.2) more).
Proof.
  induction s as [|c s IH]; intros st Hscan; simpl in Hscan.
  - exists [], []. subst st. by repeat split.
  - destruct (alnum c) eqn:Hac.
    + destruct (IH true Hscan) as (g & more & Hg & _ & Hmore & ->).
      exists (c :: g), more. repeat split; try done. by constructor.
    + destruct (separator c) eqn:Hsc; [|done].
      apply andb_true_iff in Hscan as [-> Hscan].
      destruct (IH false Hscan) as (g & more & Hg & Hne & Hmore & ->).
      exists [], ((c, g) :: more). repeat split; try done.
      constructor; [|done]. simpl. by split; [|split; [apply Hne|]].
Qed.

Lemma id_scan_groups (s : JSString) :
  id_scan false s = true ↔ separated_groups s.
Proof.
  split.
  - intros (g & more & Hg & Hne & Hmore & ->)%id_scan_decompose.
    exists g, more. by repeat split; [apply Hne|..].
  - intros (g & more & Hg & Hmore & ->).
    rewrite (id_scan_group false g _ Hg). by apply id_scan_separated.
Qed.

(** [validateId] as a scan. *)
Lemma validateId_scan (id : JSString) :
  validateId id = not_string id || id_scan false id.
Proof.
  destruct id as [|c id]; [done|]. simpl not_string. rewrite orb_false_l.
  unfold validateId. simpl not_string. rewrite orb_false_l.
  unfold RegExp.test_anchored. apply eq_true_iff_eq.
  by rewrite RegExpFacts.accepts_matches, id_pattern_groups, id_scan_groups.
Qed.

Lemma id_scan_app_separator st a c b :
  separator c = true →
  id_scan st (a ++ c :: b) = id_scan st a && id_scan false b.
Proof.
  intros Hc. revert st. induction a as [|x a IH]; intros st; simpl.
  - destruct (alnum c) eqn:Hac.
    + apply alnum_not_separator in Hac. congruence.
    + by rewrite Hc.
  - destruct (alnum x); [apply IH|].
    destruct (separator x); [|done]. by rewrite IH, andb_assoc.
Qed.

(** An id with a separator in it is valid exactly when the parts before
    and after that separator are valid ids that are not empty: valid ids
    can be joined with a separator, and cut at one. *)
Theorem validateId_join (a b : JSString) (c : Z) :
  separator c = true →
  validateId (a ++ c :: b) = true
  ↔ (a ≠ [] ∧ validateId a = true) ∧ (b ≠ [] ∧ validateId b = true).
Proof.
  intros Hc. rewrite !validateId_scan.
  assert (not_string (a ++ c :: b) = false) as -> by (by destruct a).
  rewrite orb_false_l, (id_scan_app_separator _ _ _ _ Hc), andb_true_iff.
  assert (∀ s, id_scan false s = true
               ↔ s ≠ [] ∧ not_string s || id_scan false s = true) as Hs.
  { intros [|x s]; simpl; [split; [done | by intros []]|].
    split; [by intros -> | by intros []]. }
  by rewrite (Hs a), (Hs b).
Qed.

Lemma validateId_join_witness :
  separator 45 = true ∧
  (validateId (code_units "peer" ++ 45 :: code_units "js") = true
   ↔ (code_units "peer" ≠ [] ∧ validateId (code_units "peer") = true) ∧
     (code_units "js" ≠ [] ∧ validateId (code_units "js") = true)).
Proof.
  split; [reflexivity|].
  exact (validateId_join (code_units "peer") (code_units "js") 45 eq_refl).
Defined.

(** The shape the scan accepts: only letters, digits and separators; a
    letter or digit first, unless the scan starts after one; a letter or
    digit last; and no separator next to a separator. *)
Lemma id_scan_shape (s : JSString) : ∀ st,
  id_scan st s = true
  ↔ Forall (λ c, alnum c = true ∨ separator c = true) s ∧
    (st = false → ∃ c, head s = Some c ∧ alnum c = true) ∧
    match last s with Some c => alnum c = true | None => st = true end ∧
    (∀ (i : nat) c d, s !! i = Some c → s !! S i = Some d →
       separator c = true → separator d = true → False).
Proof.
  induction s as [|c s IH]; intros st; simpl.
  - split.
    + intros ->. by repeat split.
    + by intros (_ & _ & -> & _).
  - split.
    + intros Hscan. destruct (alnum c) eqn:Hac.
      * apply IH in Hscan as (Hall & _ & Hlast & Hadj).
        split; [by constructor; [left|] |].
        split; [by exists c |]. split.
        -- destruct s as [|d s]; [done|]. rewrite last_cons_cons.
           destruct (last (d :: s)) eqn:Hl; [done | by apply last_None in Hl].
        -- intros [|i] x y; simpl.
           ++ intros [= <-] _ Hx. apply alnum_not_separator in Hac. congruence.
           ++ apply Hadj.
      * destruct (separator c) eqn:Hsc; [|done].
        apply andb_true_iff in Hscan as [-> Hscan].
        apply IH in Hscan as (Hall & Hhead & Hlast & Hadj).
        destruct (Hhead eq_refl) as (d & Hd & Had).
        destruct s as [|d' s]; [done|]. injection Hd as ->.
        split; [by constructor; [right|] |].
        split; [done |]. split.
        -- rewrite last_cons_cons. by destruct (last (d :: s)).
        -- intros [|i] x y; simpl.
           ++ intros _ [= <-] _ Hy. apply alnum_not_separator in Had.
              congruence.
           ++ apply Hadj.
    + intros (Hall & Hhead & Hlast & Hadj).
      apply Forall_cons in Hall as [Hc Hall].
      assert (∀ (i : nat) x y, s !! i = Some x → s !! S i = Some y →
                separator x = true → separator y = true → False) as Hadj'
        by (intros i; apply (Hadj (S i))).
      destruct (alnum c) eqn:Hac.
      * apply IH. split; [done|]. split; [done|]. split; [|done].
        destruct s as [|d s]; [done|]. rewrite last_cons_cons in Hlast.
        destruct (last (d :: s)) eqn:Hl; [done | by apply last_None in Hl].
      * destruct Hc as [Hc|Hc]; [done|]. rewrite Hc.
        destruct st.
        2: { destruct (Hhead eq_refl) as (x & [= <-] & Hx). congruence. }
        simpl. apply IH.
        destruct s as [|d s]; [simpl in Hlast; congruence|].
        rewrite last_cons_cons in Hlast.
        split; [done|]. split; [|split; [|done]].
        -- intros _. exists d. split; [done|].
           apply Forall_cons in Hall as [[Hd|Hd] _]; [done|].
           destruct (Hadj 0%nat c d eq_refl eq_refl Hc Hd).
        -- destruct (last (d :: s)) eqn:Hl; [done | by apply last_None in Hl].
Qed.

(** An id is valid exactly when it is empty, or made only of letters,
    digits and separators, with a letter or digit first and last and no
    two separators in a row. *)
Theorem validateId_shape (id : JSString) :
  validateId id = true
  ↔ id = [] ∨
    (Forall (λ c, alnum c = true ∨ separator c = true) id ∧
     (∃ c, head id = Some c ∧ alnum c = true) ∧
     (∃ c, last id = Some c ∧ alnum c = true) ∧
     (∀ (i : nat) c d, id !! i = Some c → id !! S i = Some d →
        separator c = true → separator d = true → False)).
Proof.
  rewrite validateId_scan, orb_true_iff, id_scan_shape. split.
  - intros [Hempty|(Hall & Hhead & Hlast & Hadj)].
    + left. by destruct id.
    + right. split; [done|]. split; [by apply Hhead|]. split; [|done].
      destruct (last id) as [c|]; [by exists c | done].
  - intros [->|(Hall & Hhead & (c & Hc & Hac) & Hadj)]; [by left|].
    right. split; [done|]. split; [done|]. split; [by rewrite Hc | done].
Qed.

(** ** [Util.supports] *)

Module ProbeFacts.
Import Probe.

Ltac platform_cases p :=
  destruct p as [b w ios npc [err|ordered] sbt dcc pcc];
  destruct w, npc, sbt, dcc, pcc; simpl.

(** The value of [util.supports], by what the platform answers.  Without
    WebRTC, or when the connection cannot be constructed, the four
    feature flags are false; otherwise [audioVideo] is true, [data] tells
    whether the channel could be created, [reliable] is its [ordered], and
    [binaryBlob] holds when [binaryType] could be set and the platform is
    not iOS.  Only an error of [pc.close ()] leaves the function. *)
Theorem supports_value (p : Platform) :
  (supports p).2
  = match isWebRTCSupported p, new_RTCPeerConnection p with
    | true, None =>
        match pc_close p with
        | Some e => Throws e
        | None =>
            Returns
              match createDataChannel p with
              | inr ordered =>
                  mkSupports (isBrowserSupported p) true true true
                    match set_binaryType p with
                    | None => negb (isIOS p)
                    | Some _ => false
                    end
                    ordered
              | inl _ =>
                  mkSupports (isBrowserSupported p) true true false false false
              end
        end
    | w, _ => Returns (mkSupports (isBrowserSupported p) w false false false false)
    end.
Proof. platform_cases p; reflexivity. Qed.

(** The flags of a returned object are consistent: [reliable] and
    [binaryBlob] imply [data], [data] implies [audioVideo], [audioVideo]
    implies [webRTC]; [binaryBlob] is never set on iOS; [browser] and
    [webRTC] are what [Supports] reports. *)
Theorem supports_flags (p : Platform) (s : UtilSupportsObj) :
  (supports p).2 = Returns s →
  browser s = isBrowserSupported p ∧
  webRTC s = isWebRTCSupported p ∧
  (audioVideo s = true → webRTC s = true) ∧
  (data s = true → audioVideo s = true) ∧
  (reliable s = true → data s = true) ∧
  (binaryBlob s = true → data s = true ∧ isIOS p = false).
Proof.
  platform_cases p; intros [= <-]; simpl; repeat split; try done;
    by destruct ios.
Qed.

Lemma supports_flags_witness :
  let p := mkPlatform true true true None (inr true) None None None in
  (supports p).2 = Returns (mkSupports true true true true false true) ∧
  (binaryBlob (mkSupports true true true true false true) = true →
   isIOS p = false).
Proof.
  split; [reflexivity|].
  apply (supports_flags
           (mkPlatform true true true None (inr true) None None None)
           (mkSupports true true true true false true) eq_refl).
Defined.

(** What the function creates it closes, the channel before the
    connection, and it closes nothing else: the calls are none (no WebRTC,
    or the constructor throws), or the connection created and closed, or
    connection and channel created and closed in the reverse order.  This
    holds also when a call throws. *)
Theorem supports_releases (p : Platform) :
  (supports p).1
  = match isWebRTCSupported p, new_RTCPeerConnection p, createDataChannel p with
    | true, None, inr _ => [Created PC; Created DC; Closed DC; Closed PC]
    | true, None, inl _ => [Created PC; Closed PC]
    | _, _, _ => []
    end.
Proof. platform_cases p; reflexivity. Qed.

(** The only error that escapes is that of [pc.close ()]: errors of the
    constructor, of [createDataChannel], of setting [binaryType] and of
    [dc.close ()] are swallowed. *)
Theorem supports_throws (p : Platform) (e : JSError) :
  (supports p).2 = Throws e
  ↔ isWebRTCSupported p = true ∧ new_RTCPeerConnection p = None ∧
    pc_close p = Some e.
Proof.
  platform_cases p; split; try done; try (by intros (? & ? & ?)).
  all: try (by intros [= ->]); by intros (_ & _ & [= ->]).
Qed.

End ProbeFacts.
